(** * Verification of OpenCV's videoio backend interface (cap_interface.hpp)

    A shallow embedding of the parameter bag [cv::VideoParameters] and of
    the legacy adapters [cv::LegacyCapture] and [cv::LegacyWriter], with
    the properties of the design document stated and proved over it.

    Conventions.
    - A C++ [int] is a [Z]; the bag never does arithmetic on keys or
      values, it only stores, compares and converts them.
    - A [std::vector] is a [list]; [push_back] and [emplace_back] append
      at the end; [operator[]] outside the vector is undefined behaviour
      and is reported as such ([Undefined]).
    - A method that mutates its object returns the new object next to its
      result.  [get] is [const] in the source but writes the [mutable]
      member [isConsumed], so it returns the bag as well.
    - [CV_Error_] throws a [cv::Exception]; a call that may throw returns
      an [outcome]. *)

From Stdlib Require Import ZArith Floats Strings.Byte.
From stdpp Require Import base decidable option numbers list strings pretty.

Local Open Scope Z_scope.

(** ** Exceptions *)

(** The two codes of [cv::Error] this file raises. *)
Module Error.
Inductive Code : Set :=
| StsVecLengthErr
| StsBadArg.
End Error.

(** The message of a [CV_Error_], with its format arguments kept apart. *)
Inductive message : Set :=
| EvenLengthExpected          (* "Vector of VideoWriter parameters should have even length" *)
| MissingValue (key : Z).     (* "Missing value for parameter: [%d]" *)

Record Exception : Set := mkException { code : Error.Code; err : message }.

Inductive outcome (A : Type) : Type :=
| Returns (a : A)
| Throws (e : Exception)
| Undefined                   (* a read outside a vector *)
| OutOfFuel.                  (* the loop model ran out of steps *)
Arguments Returns {A} a.
Arguments Throws {A} e.
Arguments Undefined {A}.
Arguments OutOfFuel {A}.

(** ** Conversions of a parameter value *)

(** [static_cast<T>(int)] for the numeric types backends ask for. *)
Class StaticCast (T : Type) := static_cast : Z → T.

(** Two's complement wrap-around of [z] into [bits] bits. *)
Definition wrap_unsigned (bits : Z) (z : Z) : Z := z mod 2 ^ bits.
Definition wrap_signed (bits : Z) (z : Z) : Z :=
  (z + 2 ^ (bits - 1)) mod 2 ^ bits - 2 ^ (bits - 1).

Record int := Int { int_val : Z }.
Record unsigned_int := UInt { uint_val : Z }.
Record short := Short { short_val : Z }.
Record uchar := UChar { uchar_val : Z }.
Record int64 := Int64 { int64_val : Z }.

#[export] Instance static_cast_int : StaticCast int := Int.
#[export] Instance static_cast_unsigned : StaticCast unsigned_int :=
  λ v, UInt (wrap_unsigned 32 v).
#[export] Instance static_cast_short : StaticCast short :=
  λ v, Short (wrap_signed 16 v).
#[export] Instance static_cast_uchar : StaticCast uchar :=
  λ v, UChar (wrap_unsigned 8 v).
#[export] Instance static_cast_int64 : StaticCast int64 := Int64.

(** [castParameterTo<T>]: the primary template and its [bool]
    specialisation.  An instance chooses one of the two, as overload
    resolution does. *)
Class CastParameter (T : Type) := castParameterTo : Z → T.

Definition castParameterTo_primary {T} `{StaticCast T} : CastParameter T :=
  λ paramValue, static_cast paramValue.

Definition castParameterTo_bool : CastParameter bool :=
  λ paramValue, negb (paramValue =? 0).

(** ** The parameter bag *)

Module VideoParameters.

Record VideoParameter : Set := mkVideoParameter {
  key : Z;
  value : Z;
  isConsumed : bool
}.

(** [VideoParameter(int key_, int value_)]; [isConsumed{false}]. *)
Definition VideoParameter_ctor (key_ value_ : Z) : VideoParameter :=
  {| key := key_; value := value_; isConsumed := false |}.

Record t : Set := mk { params_ : list VideoParameter }.

(** [VideoParameters() = default]. *)
Definition default : t := {| params_ := [] |}.

Definition add (key_ value_ : Z) (self : t) : t :=
  {| params_ := params_ self ++ [VideoParameter_ctor key_ value_] |}.

(** The loop [for (i = 0; i < count; i += 2) add(params[i], params[i + 1])]. *)
Fixpoint ctor_loop (fuel : nat) (params : list Z) (count i : nat) (self : t)
  : outcome t :=
  if decide (i < count)%nat then
    match fuel with
    | O => OutOfFuel
    | S fuel' =>
        match params !! i, params !! (i + 1)%nat with
        | Some k, Some v => ctor_loop fuel' params count (i + 2)%nat (add k v self)
        | _, _ => Undefined
        end
    end
  else Returns self.

(** [explicit VideoParameters(const std::vector<int>& params)].
    [reserve] changes the capacity only, which nothing observes. *)
Definition ctor (params : list Z) : outcome t :=
  let count := length params in
  if negb (count mod 2 =? 0)%nat then
    Throws {| code := Error.StsVecLengthErr; err := EvenLengthExpected |}
  else ctor_loop count params count 0%nat default.

(** The loop of the pointer constructor,
    [for (unsigned i = 0; i < n_params; ++i) add(params[2*i], params[2*i + 1])].
    [i] is an [unsigned], so [2*i], [2*i + 1] and [++i] are computed
    modulo 2^32.  [params] is the array behind the pointer; a read past
    its end is undefined behaviour. *)
Fixpoint ctor_ptr_loop (fuel : nat) (params : list Z) (n_params i : Z) (self : t)
  : outcome t :=
  if decide (i < n_params) then
    match fuel with
    | O => OutOfFuel
    | S fuel' =>
        match params !! Z.to_nat (wrap_unsigned 32 (2 * i)),
              params !! Z.to_nat (wrap_unsigned 32 (wrap_unsigned 32 (2 * i) + 1)) with
        | Some k, Some v =>
            ctor_ptr_loop fuel' params n_params (wrap_unsigned 32 (i + 1)) (add k v self)
        | _, _ => Undefined
        end
    end
  else Returns self.

(** [VideoParameters(int* params, unsigned n_params)]: [n_params] counts
    pairs. *)
Definition ctor_ptr (params : list Z) (n_params : Z) : outcome t :=
  ctor_ptr_loop (Z.to_nat n_params) params n_params 0 default.

(** [std::find_if] with the predicate [param.key == key]: the first
    position that matches, with its entry. *)
Definition find_key (key_ : Z) (self : t) : option (nat * VideoParameter) :=
  list_find (λ param, key param = key_) (params_ self).

Definition has (key_ : Z) (self : t) : bool :=
  match find_key key_ self with
  | Some _ => true
  | None => false
  end.

(** [it->isConsumed = true]. *)
Definition consume (param : VideoParameter) : VideoParameter :=
  {| key := key param; value := value param; isConsumed := true |}.

Definition mark (i : nat) (self : t) : t :=
  {| params_ := alter consume i (params_ self) |}.

(** [get<ValueType>(int key)], the required form. *)
Definition get {ValueType} `{CastParameter ValueType} (key_ : Z) (self : t)
  : t * outcome ValueType :=
  match find_key key_ self with
  | Some (i, it) => (mark i self, Returns (castParameterTo (value it)))
  | None =>
      (self, Throws {| code := Error.StsBadArg; err := MissingValue key_ |})
  end.

(** [get<ValueType>(int key, ValueType defaultValue)], the optional form. *)
Definition get_or {ValueType} `{CastParameter ValueType}
    (key_ : Z) (defaultValue : ValueType) (self : t) : t * ValueType :=
  match find_key key_ self with
  | Some (i, it) => (mark i self, castParameterTo (value it))
  | None => (self, defaultValue)
  end.

Definition getUnused (self : t) : list Z :=
  foldl (λ unusedParams param,
           if negb (isConsumed param) then unusedParams ++ [key param]
           else unusedParams)
        [] (params_ self).

Definition getIntVector (self : t) : list Z :=
  foldl (λ vint_params param, (vint_params ++ [key param]) ++ [value param])
        [] (params_ self).

Definition empty (self : t) : bool :=
  match params_ self with
  | [] => true
  | _ => false
  end.

(** The entries [warnUnusedParameters] logs, and the flag it returns. *)
Definition warnUnusedParameters (self : t) : list (Z * Z) * bool :=
  foldl (λ '(log, found) param,
           if negb (isConsumed param)
           then (log ++ [(key param, value param)], true)
           else (log, found))
        ([], false) (params_ self).

End VideoParameters.

(** ** Images *)

Definition row := list Byte.byte.

(** The fields of [IplImage] the adapters read: the row-origin tag and the
    rows in the order they are stored. *)
Record IplImage : Set := mkIplImage {
  origin : Z;
  imageData : list row
}.

Definition height (img : IplImage) : nat := length (imageData img).

(** A [cv::Mat], as its rows from the first stored to the last. *)
Record Mat : Set := mkMat { data : list row }.

Definition Mat_rows (m : Mat) : nat := length (data m).

(** Modelled from the spec: [OutputArray::release], [cv::cvarrToMat],
    [Mat::copyTo], [cv::flip] and [cvIplImage] belong to OpenCV's core
    module and are only called here.  Releasing leaves a buffer of size
    zero with no data; [cvarrToMat] followed by [copyTo] is the direct
    copy of the rows as stored; [flip] with flip code 0 is the vertical
    flip, output row [r] being source row [height - 1 - r] (a positive
    code mirrors each row, a negative one does both); [cvIplImage] gives
    a frame the legacy shape, tagged top-to-bottom ([tl]), without
    reordering its rows. *)
Definition release (image : Mat) : Mat := {| data := [] |}.

Definition cvarrToMat (arr : IplImage) : Mat := {| data := imageData arr |}.

Definition copyTo (src image : Mat) : Mat := {| data := data src |}.

Definition flip (src image : Mat) (flipCode : Z) : Mat :=
  if flipCode =? 0 then {| data := reverse (data src) |}
  else if 0 <? flipCode then {| data := reverse <$> data src |}
  else {| data := reverse (reverse <$> data src) |}.

Definition cvIplImage (tl : Z) (m : Mat) : IplImage :=
  {| origin := tl; imageData := data m |}.

(** ** The legacy objects and their C entry points *)

(** The legacy objects live in the memory of the program, a [World]; a
    non-null [CvCapture*] is a handle of type [CvCapture] and a pointer
    that may be null an [option].  A virtual call is resolved by the
    object behind the handle, so it is a function of the handle and the
    world.  The entry points [cv*] are declared in videoio_c.h and the
    constants [IPL_ORIGIN_*] in types_c.h; this file only uses them, so
    they are taken as they come. *)
Class Legacy : Type := {
  World : Type;
  CvCapture : Type;
  CvVideoWriter : Type;
  IPL_ORIGIN_TL : Z;
  IPL_ORIGIN_BL : Z;
  (* virtual members the adapters call on the object *)
  CvCapture_getProperty : CvCapture → Z → World → float;
  CvCapture_getCaptureDomain : CvCapture → World → World * Z;
  CvVideoWriter_getProperty : CvVideoWriter → Z → World → float;
  CvVideoWriter_getCaptureDomain : CvVideoWriter → World → Z;
  (* entry points of the C interface *)
  cvSetCaptureProperty : option CvCapture → Z → float → World → World * Z;
  cvGrabFrame : option CvCapture → World → World * Z;
  cvRetrieveFrame : option CvCapture → Z → World → World * option IplImage;
  cvWriteFrame : option CvVideoWriter → IplImage → World → World * Z;
  cvReleaseCapture : option CvCapture → World → World;
  cvReleaseVideoWriter : option CvVideoWriter → World → World
}.

(** ** The adapters *)

Module LegacyCapture.
Section Methods.
Context `{L : Legacy}.

Record t : Type := mk { cap : option CvCapture }.

(** [LegacyCapture(CvCapture * cap_) : cap(cap_) {}] *)
Definition ctor (cap_ : option CvCapture) : t := {| cap := cap_ |}.

(** [cvReleaseCapture(&cap)] releases the object and nulls the pointer. *)
Definition dtor (self : t) (w : World) : t * World :=
  ({| cap := None |}, cvReleaseCapture (cap self) w).

Definition getProperty (self : t) (propId : Z) (w : World) : float :=
  match cap self with
  | Some c => CvCapture_getProperty c propId w
  | None => 0%float
  end.

Definition setProperty (self : t) (propId : Z) (value : float) (w : World)
  : World * bool :=
  let '(w', r) := cvSetCaptureProperty (cap self) propId value w in
  (w', negb (r =? 0)).

Definition grabFrame (self : t) (w : World) : World * bool :=
  match cap self with
  | Some c => let '(w', r) := cvGrabFrame (Some c) w in (w', negb (r =? 0))
  | None => (w, false)
  end.

(** [image] is the caller's output buffer; the buffer after the call is
    returned with the flag. *)
Definition retrieveFrame (self : t) (channel : Z) (image : Mat) (w : World)
  : World * Mat * bool :=
  let '(w', _img) := cvRetrieveFrame (cap self) channel w in
  match _img with
  | None => (w', release image, false)
  | Some img =>
      if decide (origin img = IPL_ORIGIN_TL) then
        (w', copyTo (cvarrToMat img) image, true)
      else
        let temp := cvarrToMat img in
        (w', flip temp image 0, true)
  end.

Definition isOpened (self : t) : bool :=
  match cap self with
  | Some _ => true
  | None => false
  end.

Definition getCaptureDomain (self : t) (w : World) : World * Z :=
  match cap self with
  | Some c => CvCapture_getCaptureDomain c w
  | None => (w, 0)
  end.

Definition getCvCapture (self : t) : option CvCapture := cap self.

End Methods.
End LegacyCapture.

Module LegacyWriter.
Section Methods.
Context `{L : Legacy}.

Record t : Type := mk { writer : option CvVideoWriter }.

Definition ctor (wri_ : option CvVideoWriter) : t := {| writer := wri_ |}.

Definition dtor (self : t) (w : World) : t * World :=
  ({| writer := None |}, cvReleaseVideoWriter (writer self) w).

Definition getProperty (self : t) (propId : Z) (w : World) : float :=
  match writer self with
  | Some wr => CvVideoWriter_getProperty wr propId w
  | None => 0%float
  end.

Definition setProperty (self : t) (propId : Z) (value : float) (w : World)
  : World * bool :=
  (w, false).

Definition isOpened (self : t) : bool :=
  match writer self with
  | Some _ => true
  | None => false
  end.

Definition write (self : t) (image : Mat) (w : World) : World :=
  let _img := cvIplImage IPL_ORIGIN_TL image in
  fst (cvWriteFrame (writer self) _img w).

Definition getCaptureDomain (self : t) (w : World) : Z :=
  match writer self with
  | Some wr => CvVideoWriter_getCaptureDomain wr w
  | None => 0
  end.

End Methods.
End LegacyWriter.

(** ** The legacy base classes *)

(** A legacy object whose members do not change it: one closure per
    virtual member. *)
Record capture_object : Set := mkCapture {
  obj_getProperty : Z → float;
  obj_setProperty : Z → float → bool;
  obj_grabFrame : bool;
  obj_retrieveFrame : Z → option IplImage;
  obj_getCaptureDomain : Z
}.

Record writer_object : Set := mkWriter {
  obj_writeFrame : IplImage → bool;
  wobj_getCaptureDomain : Z;
  wobj_getProperty : Z → float
}.

(** [struct CvCapture] and [struct CvVideoWriter] with the bodies the
    source gives their members.  [cv::CAP_ANY] is declared in videoio.hpp,
    so its value is a parameter. *)
Module CvCaptureBase.
Section Members.
Variable CAP_ANY : Z.

Definition getProperty (_ : Z) : float := 0%float.
Definition setProperty (_ : Z) (_ : float) : bool := false.
Definition grabFrame : bool := true.
Definition retrieveFrame (_ : Z) : option IplImage := None.
Definition getCaptureDomain : Z := CAP_ANY.

Definition object : capture_object :=
  {| obj_getProperty := getProperty;
     obj_setProperty := setProperty;
     obj_grabFrame := grabFrame;
     obj_retrieveFrame := retrieveFrame;
     obj_getCaptureDomain := getCaptureDomain |}.

End Members.
End CvCaptureBase.

Module CvVideoWriterBase.
Section Members.
Variable CAP_ANY : Z.

Definition writeFrame (_ : IplImage) : bool := false.
Definition getCaptureDomain : Z := CAP_ANY.
Definition getProperty (_ : Z) : float := 0%float.

Definition object : writer_object :=
  {| obj_writeFrame := writeFrame;
     wobj_getCaptureDomain := getCaptureDomain;
     wobj_getProperty := getProperty |}.

End Members.
End CvVideoWriterBase.

(** Modelled from the spec: the C entry points of videoio_c.h, whose
    bodies are not in this file, over objects that keep no state.  Each
    forwards the request to the wrapped object ("requests the raw image
    from the wrapped object"); for a null pointer there is no object to
    ask and the answer is 0, respectively no image. *)
Definition stateless_legacy (tl bl : Z) : Legacy :=
  {| World := unit;
     CvCapture := capture_object;
     CvVideoWriter := writer_object;
     IPL_ORIGIN_TL := tl;
     IPL_ORIGIN_BL := bl;
     CvCapture_getProperty := λ c propId _, obj_getProperty c propId;
     CvCapture_getCaptureDomain := λ c w, (w, obj_getCaptureDomain c);
     CvVideoWriter_getProperty := λ wr propId _, wobj_getProperty wr propId;
     CvVideoWriter_getCaptureDomain := λ wr _, wobj_getCaptureDomain wr;
     cvSetCaptureProperty := λ cap propId value w,
       (w, from_option (λ c, Z.b2z (obj_setProperty c propId value)) 0 cap);
     cvGrabFrame := λ cap w,
       (w, from_option (λ c, Z.b2z (obj_grabFrame c)) 0 cap);
     cvRetrieveFrame := λ cap idx w,
       (w, cap ≫= λ c, obj_retrieveFrame c idx);
     cvWriteFrame := λ writer image w,
       (w, from_option (λ wr, Z.b2z (obj_writeFrame wr image)) 0 writer);
     cvReleaseCapture := λ _ w, w;
     cvReleaseVideoWriter := λ _ w, w |}.

(** A legacy capture that overrides [retrieveFrame] to hand out one fixed
    image on every channel, and inherits the other members. *)
Definition still_capture (CAP_ANY : Z) (img : IplImage) : capture_object :=
  {| obj_getProperty := CvCaptureBase.getProperty;
     obj_setProperty := CvCaptureBase.setProperty;
     obj_grabFrame := CvCaptureBase.grabFrame;
     obj_retrieveFrame := λ _, Some img;
     obj_getCaptureDomain := CvCaptureBase.getCaptureDomain CAP_ANY |}.

(** A legacy capture that has run out of frames: [grabFrame] fails and
    [retrieveFrame] has nothing to hand out. *)
Definition exhausted_capture (CAP_ANY : Z) : capture_object :=
  {| obj_getProperty := CvCaptureBase.getProperty;
     obj_setProperty := CvCaptureBase.setProperty;
     obj_grabFrame := false;
     obj_retrieveFrame := CvCaptureBase.retrieveFrame;
     obj_getCaptureDomain := CvCaptureBase.getCaptureDomain CAP_ANY |}.

(** ** Printing a [VideoAccelerationType] *)

(** The enumerators of [VideoAccelerationType] are declared in
    videoio.hpp; their values are taken as they come. *)
Class VideoAccelerationTypes : Type := {
  VIDEO_ACCELERATION_NONE : Z;
  VIDEO_ACCELERATION_ANY : Z;
  VIDEO_ACCELERATION_D3D11 : Z;
  VIDEO_ACCELERATION_VAAPI : Z;
  VIDEO_ACCELERATION_MFX : Z
}.

(** [cv::format("UNKNOWN(0x%ux)", u)].  [cv::format] is [printf]: [%u]
    is the unsigned value in decimal, and the [0x] before it and the [x]
    after it are text of the format string. *)
Definition format_UNKNOWN (u : unsigned_int) : string :=
  "UNKNOWN(0x" +:+ pretty (Z.to_N (uint_val u)) +:+ "x)".

(** [operator<<(std::ostream& out, const VideoAccelerationType& va_type)];
    the stream is the text written to it so far.  The case labels of the
    [switch] are tried in the order of the source; a [switch] with two
    equal labels does not compile, so the order decides nothing. *)
Definition print_VideoAccelerationType `{VideoAccelerationTypes}
    (out : string) (va_type : Z) : string :=
  if decide (va_type = VIDEO_ACCELERATION_NONE) then out +:+ "NONE"
  else if decide (va_type = VIDEO_ACCELERATION_ANY) then out +:+ "ANY"
  else if decide (va_type = VIDEO_ACCELERATION_D3D11) then out +:+ "D3D11"
  else if decide (va_type = VIDEO_ACCELERATION_VAAPI) then out +:+ "VAAPI"
  else if decide (va_type = VIDEO_ACCELERATION_MFX) then out +:+ "MFX"
  else out +:+ format_UNKNOWN (static_cast va_type).

(** Enumerators numbered from 0 in the order of the [switch], for examples. *)
Definition consecutive_types : VideoAccelerationTypes :=
  {| VIDEO_ACCELERATION_NONE := 0;
     VIDEO_ACCELERATION_ANY := 1;
     VIDEO_ACCELERATION_D3D11 := 2;
     VIDEO_ACCELERATION_VAAPI := 3;
     VIDEO_ACCELERATION_MFX := 4 |}.

(** The values of a C++ [int]. *)
Definition int_range (z : Z) : Prop := - 2 ^ 31 ≤ z < 2 ^ 31.

(** ** Notions the statements use *)

(** Modelled from the spec: the rows of the picture from its top row to
    its bottom row, as the row-origin tag says to read them: a
    bottom-to-top image stores the bottom row first. *)
Definition top_down_rows `{L : Legacy} (img : IplImage) : list row :=
  if decide (origin img = IPL_ORIGIN_BL) then reverse (imageData img)
  else imageData img.

(** The keys of a bag, in order. *)
Definition keys (B : VideoParameters.t) : list Z :=
  VideoParameters.key <$> VideoParameters.params_ B.

(** No entry of the bag has been consumed. *)
Definition unconsumed (B : VideoParameters.t) : Prop :=
  Forall (λ p, VideoParameters.isConsumed p = false) (VideoParameters.params_ B).

(** A backend that reads each key of [ks] in turn with [get<int>]. *)
Definition lookup_each (ks : list Z) (B : VideoParameters.t) : VideoParameters.t :=
  foldl (λ b k, (VideoParameters.get (H := castParameterTo_primary (T := int)) k b).1)
        B ks.

(** The bag of the end-to-end scenario, built from [10, 1, 20, 0]. *)
Definition scenario : VideoParameters.t :=
  VideoParameters.add 20 0 (VideoParameters.add 10 1 VideoParameters.default).

(** What one lookup of [k] does to the entries: the first one with key
    [k] is consumed. *)
Fixpoint consume_first (k : Z) (l : list VideoParameters.VideoParameter)
  : list VideoParameters.VideoParameter :=
  match l with
  | [] => []
  | p :: l' =>
      if decide (VideoParameters.key p = k) then VideoParameters.consume p :: l'
      else p :: consume_first k l'
  end.

(** What the lookups of all of [ks] do to the entries that follow entries
    with the keys [seen]: an entry is consumed when its key is looked up
    and no earlier entry has it. *)
Fixpoint settle (ks seen : list Z) (l : list VideoParameters.VideoParameter)
  : list VideoParameters.VideoParameter :=
  match l with
  | [] => []
  | p :: l' =>
      (if decide (VideoParameters.key p ∈ ks ∧ VideoParameters.key p ∉ seen)
       then VideoParameters.consume p else p)
      :: settle ks (VideoParameters.key p :: seen) l'
  end.

(** A bag with a repeated key, built from [10, 1, 10, 2]. *)
Definition duplicate_bag : VideoParameters.t :=
  VideoParameters.add 10 2 (VideoParameters.add 10 1 VideoParameters.default).

(** A three-row image stored bottom row first, and a frame left in an
    output buffer by an earlier call. *)
Definition bottom_up_image (bl : Z) : IplImage :=
  {| origin := bl;
     imageData := [[Byte.x03; Byte.x03]; [Byte.x02; Byte.x02]; [Byte.x01; Byte.x01]] |}.

Definition stale_frame : Mat := {| data := [[Byte.xff; Byte.xff]] |}.

(** * Properties of the parameter bag *)

Module VideoParametersFacts.
Import VideoParameters.

Implicit Types (B self : t) (l : list VideoParameter) (k v : Z).

(** *** The two readers as list functions *)

Lemma getIntVector_foldl l (acc : list Z) :
  foldl (λ vint_params param, (vint_params ++ [key param]) ++ [value param]) acc l
  = acc ++ (l ≫= λ p, [key p; value p]).
Proof.
  revert acc. induction l as [|p l IH]; intros acc; simpl.
  - by rewrite app_nil_r.
  - rewrite IH, <- !app_assoc. done.
Qed.

Lemma getIntVector_bind B :
  getIntVector B = params_ B ≫= λ p, [key p; value p].
Proof. unfold getIntVector. by rewrite getIntVector_foldl. Qed.

Lemma getIntVector_add k v B :
  getIntVector (add k v B) = getIntVector B ++ [k; v].
Proof.
  rewrite !getIntVector_bind. simpl. rewrite bind_app. simpl. done.
Qed.

Lemma getUnused_foldl l (acc : list Z) :
  foldl (λ unusedParams param,
           if negb (isConsumed param) then unusedParams ++ [key param]
           else unusedParams) acc l
  = acc ++ (key <$> filter (λ p, isConsumed p = false) l).
Proof.
  revert acc. induction l as [|p l IH]; intros acc; simpl.
  - by rewrite app_nil_r.
  - rewrite IH. destruct (isConsumed p) eqn:E; simpl.
    + rewrite filter_cons_False by congruence. done.
    + rewrite filter_cons_True by done. simpl. by rewrite <- app_assoc.
Qed.

Lemma getUnused_filter B :
  getUnused B = key <$> filter (λ p, isConsumed p = false) (params_ B).
Proof. unfold getUnused. by rewrite getUnused_foldl. Qed.

(** *** Construction *)

Lemma unconsumed_add k v B : unconsumed B → unconsumed (add k v B).
Proof.
  unfold unconsumed. simpl. intros HB. apply Forall_app. split; [done|].
  by repeat constructor.
Qed.

(** The loop reads the rest of the vector pair by pair and ends before
    its steps are used up. *)
Lemma ctor_loop_returns (params : list Z) (m : nat) :
  ∀ (i fuel : nat) self,
    length params = (i + 2 * m)%nat → (m ≤ fuel)%nat →
    ∃ B, ctor_loop fuel params (length params) i self = Returns B
         ∧ getIntVector B = getIntVector self ++ drop i params
         ∧ (unconsumed self → unconsumed B).
Proof.
  induction m as [|m IH]; intros i fuel self Hlen Hfuel.
  - exists self. destruct fuel; simpl; (case_decide; [lia|]);
      rewrite drop_ge, app_nil_r by lia; done.
  - destruct fuel as [|fuel]; [lia|]. simpl.
    case_decide; [|lia].
    destruct (lookup_lt_is_Some_2 params i) as [k Hk]; [lia|].
    destruct (lookup_lt_is_Some_2 params (i + 1)) as [v Hv]; [lia|].
    rewrite Hk, Hv.
    destruct (IH (i + 2)%nat fuel (add k v self)) as (B & HB & Hvec & Hun);
      [lia..|].
    exists B. split; [done|]. split.
    + rewrite Hvec, getIntVector_add, <- app_assoc. f_equal.
      rewrite (drop_S _ _ _ Hk). replace (S i) with (i + 1)%nat by lia.
      rewrite (drop_S _ _ _ Hv). simpl. do 3 f_equal. lia.
    + intros Hs. by apply Hun, unconsumed_add.
Qed.

Lemma ctor_even (S : list Z) :
  Nat.Even (length S) →
  ∃ B, ctor S = Returns B ∧ getIntVector B = S ∧ unconsumed B.
Proof.
  intros [m Hm]. unfold ctor. cbv zeta.
  replace (length S mod 2 =? 0)%nat with true.
  2:{ symmetry. apply Nat.eqb_eq. rewrite Hm, Nat.mul_comm.
      apply Nat.Div0.mod_mul. }
  simpl.
  destruct (ctor_loop_returns S m 0 (length S) default) as (B & HB & Hvec & Hun);
    [lia..|].
  exists B. split; [done|]. split; [|apply Hun; constructor].
  by rewrite Hvec.
Qed.

Lemma ctor_odd (S : list Z) :
  Nat.Odd (length S) →
  ctor S = Throws {| code := Error.StsVecLengthErr; err := EvenLengthExpected |}.
Proof.
  intros [m Hm]. unfold ctor. cbv zeta.
  replace (length S mod 2 =? 0)%nat with false; [done|].
  symmetry. apply Nat.eqb_neq. rewrite Hm.
  rewrite Nat.add_comm, Nat.mul_comm, Nat.Div0.mod_add. done.
Qed.

(** C1.  Building a bag from an even-length vector [S] and reading it back
    with [getIntVector] gives [S] again, in order; for an odd-length [S]
    the constructor throws [StsVecLengthErr] and returns no bag. *)
Theorem ctor_getIntVector_roundtrip (S : list Z) :
  (Nat.Even (length S) → ∃ B, ctor S = Returns B ∧ getIntVector B = S) ∧
  (Nat.Odd (length S) →
   ctor S = Throws {| code := Error.StsVecLengthErr; err := EvenLengthExpected |}
   ∧ ∀ B, ctor S ≠ Returns B).
Proof.
  split.
  - intros HS. destruct (ctor_even S HS) as (B & ? & ? & _). eauto.
  - intros HS. rewrite (ctor_odd S HS). split; [done|]. discriminate.
Qed.

Lemma ctor_getIntVector_roundtrip_witness :
  (∃ B, ctor [10; 1; 20; 0] = Returns B ∧ getIntVector B = [10; 1; 20; 0]) ∧
  ctor [10; 1; 20] = Throws {| code := Error.StsVecLengthErr; err := EvenLengthExpected |}.
Proof.
  split.
  - apply (ctor_getIntVector_roundtrip [10; 1; 20; 0]). by exists 2%nat.
  - apply (ctor_getIntVector_roundtrip [10; 1; 20]). by exists 1%nat.
Defined.

(** *** Lookups *)

Lemma find_key_Some k B i it :
  find_key k B = Some (i, it) ↔
  params_ B !! i = Some it ∧ key it = k ∧
  ∀ j p, params_ B !! j = Some p → (j < i)%nat → key p ≠ k.
Proof. unfold find_key. by rewrite list_find_Some. Qed.

Lemma find_key_None k B : find_key k B = None ↔ k ∉ keys B.
Proof.
  unfold find_key, keys. rewrite list_find_None, list_elem_of_fmap, Forall_forall.
  split.
  - intros Hall (p & -> & Hp). by apply (Hall p).
  - intros Hk p Hp Hkey. apply Hk. by exists p.
Qed.

Lemma find_key_present k B :
  k ∈ keys B → ∃ i it, find_key k B = Some (i, it).
Proof.
  intros Hk. destruct (find_key k B) as [[i it]|] eqn:E; [eauto|].
  by apply find_key_None in E.
Qed.

Lemma consume_idemp p : consume (consume p) = consume p.
Proof. done. Qed.

Lemma mark_idemp i B : mark i (mark i B) = mark i B.
Proof.
  unfold mark. simpl. f_equal. rewrite list_alter_alter_eq.
  apply list_alter_ext; [|done]. intros p _. apply consume_idemp.
Qed.

(** Marking an entry does not move the first match of any key. *)
Lemma key_alter_consume i l j p :
  alter consume i l !! j = Some p →
  ∃ q, l !! j = Some q ∧ key q = key p ∧ value q = value p
       ∧ p = (if decide (i = j) then consume q else q).
Proof.
  rewrite list_lookup_alter. case_decide as Hij.
  - intros (q & Hq & ->)%fmap_Some. exists q. by rewrite <- Hij.
  - intros Hq. exists p. done.
Qed.

Lemma find_key_mark k i B :
  find_key k (mark i B)
  = (λ '(j, p), (j, if decide (i = j) then consume p else p)) <$> find_key k B.
Proof.
  destruct (find_key k B) as [[j it]|] eqn:E; simpl.
  - apply find_key_Some in E as (Hj & Hk & Hlt).
    apply find_key_Some. simpl. split_and!.
    + destruct (decide (i = j)) as [->|Hij].
      * by rewrite list_lookup_alter_eq, Hj.
      * by rewrite list_lookup_alter_ne.
    + by case_decide.
    + intros j' p Hp Hlt'.
      apply key_alter_consume in Hp as (q & Hq & Hkq & _).
      rewrite <- Hkq. by eapply Hlt.
  - apply find_key_None. apply find_key_None in E.
    unfold keys in *. simpl. intros (p & -> & Hp)%list_elem_of_fmap.
    apply list_elem_of_lookup in Hp as [j Hp].
    apply key_alter_consume in Hp as (q & Hq & Hkq & _).
    apply E, list_elem_of_fmap. rewrite <- Hkq. exists q. split; [done|].
    by eapply list_elem_of_lookup_2.
Qed.

(** C3.  For a key [k] present in the bag, [get<T>(k)] returns the value
    of the first entry whose key is [k], converted to [T]: for [bool] the
    result is true exactly when the stored integer is not zero, for the
    other numeric types it is the [static_cast] of the integer.  The call
    sets the consumed flag of that entry and changes nothing else, and a
    second [get] of the same key succeeds with the same value. *)
Theorem get_present_first_match {T} (C : CastParameter T) (B : t) (k : Z) :
  k ∈ keys B →
  ∃ (i : nat) (it : VideoParameter) (B' : t),
    (* [it] is the first entry with key [k] *)
    params_ B !! i = Some it ∧ key it = k ∧
    (∀ j p, params_ B !! j = Some p → (j < i)%nat → key p ≠ k) ∧
    (* the value returned *)
    get (H := C) k B = (B', Returns (castParameterTo (value it))) ∧
    get (H := castParameterTo_bool) k B = (B', Returns (bool_decide (value it ≠ 0))) ∧
    (∀ T' (S : StaticCast T'),
       get (H := castParameterTo_primary) k B = (B', Returns (static_cast (value it)))) ∧
    (* the entry is marked, the others are as they were *)
    params_ B' !! i = Some {| key := k; value := value it; isConsumed := true |} ∧
    (∀ j, j ≠ i → params_ B' !! j = params_ B !! j) ∧
    length (params_ B') = length (params_ B) ∧
    (* the entry is still there for a second lookup *)
    get (H := C) k B' = (B', Returns (castParameterTo (value it))).
Proof.
  intros Hk. destruct (find_key_present k B Hk) as (i & it & Hfind).
  pose proof Hfind as (Hi & Hkey & Hfirst)%find_key_Some.
  exists i, it, (mark i B). split_and!; try done.
  - unfold get. by rewrite Hfind.
  - unfold get. rewrite Hfind. do 2 f_equal.
    unfold castParameterTo, castParameterTo_bool.
    destruct (decide (value it = 0)) as [E|E].
    + rewrite E. reflexivity.
    + rewrite bool_decide_eq_true_2 by done. apply Z.eqb_neq in E. by rewrite E.
  - intros T' S. unfold get. by rewrite Hfind.
  - simpl. rewrite list_lookup_alter_eq, Hi. simpl. by rewrite <- Hkey.
  - intros j Hj. simpl. by rewrite list_lookup_alter_ne.
  - simpl. by rewrite length_alter.
  - unfold get. rewrite find_key_mark, Hfind. simpl.
    rewrite decide_True by done. by rewrite mark_idemp.
Qed.

Lemma get_present_first_match_witness :
  ∃ i it B',
    params_ scenario !! i = Some it ∧ key it = 20 ∧
    get (H := castParameterTo_bool) 20 scenario = (B', Returns false) ∧
    params_ B' !! i = Some {| key := 20; value := 0; isConsumed := true |}.
Proof.
  destruct (get_present_first_match castParameterTo_bool scenario 20)
    as (i & it & B' & Hi & Hk & Hfirst & Hget & _ & _ & HB' & _).
  { unfold keys, scenario. simpl. apply list_elem_of_further, list_elem_of_here. }
  exists i, it, B'. split_and!; try done.
  - rewrite Hget. do 2 f_equal.
    destruct i as [|[|i]]; simpl in Hi; simplify_eq/=; done.
  - rewrite HB'. do 2 f_equal.
    destruct i as [|[|i]]; simpl in Hi; simplify_eq/=; done.
Defined.

(** C4.  For a key [k] absent from the bag, [has(k)] is false, the
    required [get<T>(k)] throws [StsBadArg] ("Missing value for
    parameter"), and the optional [get<T>(k, d)] returns [d]; neither
    lookup changes the bag, so no entry becomes consumed. *)
Theorem get_absent {T} (C : CastParameter T) (B : t) (k : Z) (d : T) :
  k ∉ keys B →
  has k B = false ∧
  get (H := C) k B
    = (B, Throws {| code := Error.StsBadArg; err := MissingValue k |}) ∧
  get_or (H := C) k d B = (B, d).
Proof.
  intros Hk%find_key_None. unfold has, get, get_or. by rewrite Hk.
Qed.

Lemma get_absent_witness :
  has 30 scenario = false ∧
  get (H := castParameterTo_primary (T := int)) 30 scenario
    = (scenario, Throws {| code := Error.StsBadArg; err := MissingValue 30 |}) ∧
  get_or (H := castParameterTo_primary) 30 (Int 99) scenario = (scenario, Int 99).
Proof.
  apply (get_absent castParameterTo_primary scenario 30 (Int 99)).
  unfold keys, scenario. simpl. intros Hin.
  repeat (apply elem_of_cons in Hin as [Hin|Hin]; [discriminate Hin|]).
  by apply elem_of_nil in Hin.
Defined.

(** *** Unused keys *)

Lemma get_consume_first {T} (C : CastParameter T) k B :
  params_ (get (H := C) k B).1 = consume_first k (params_ B).
Proof.
  destruct B as [l]. unfold get, find_key. simpl.
  induction l as [|p l IH]; [done|]. simpl. case_decide; [done|].
  destruct (list_find (λ param, key param = k) l) as [[i it]|]; simpl in *.
  - f_equal. exact IH.
  - f_equal. exact IH.
Qed.

Lemma settle_cons ks seen p l :
  settle ks seen (p :: l)
  = (if decide (key p ∈ ks ∧ key p ∉ seen) then consume p else p)
    :: settle ks (key p :: seen) l.
Proof. done. Qed.

Lemma consume_first_cons k p l :
  consume_first k (p :: l)
  = if decide (key p = k) then consume p :: l else p :: consume_first k l.
Proof. done. Qed.

Lemma settle_nil seen l : settle [] seen l = l.
Proof.
  revert seen. induction l as [|p l IH]; intros seen; [done|].
  rewrite settle_cons, IH, decide_False; [done|].
  intros [Hin _]. by apply elem_of_nil in Hin.
Qed.

Lemma settle_seen ks k seen l :
  k ∈ seen → settle (ks ++ [k]) seen l = settle ks seen l.
Proof.
  revert seen. induction l as [|p l IH]; intros seen Hk; [done|].
  rewrite !settle_cons, IH by (by apply list_elem_of_further). f_equal.
  apply decide_ext. rewrite elem_of_app, list_elem_of_singleton.
  split; [|tauto]. intros [[?|Hp] ?]; [done|]. by rewrite Hp in *.
Qed.

Lemma consume_first_settle ks k seen l :
  k ∉ seen → consume_first k (settle ks seen l) = settle (ks ++ [k]) seen l.
Proof.
  revert seen. induction l as [|p l IH]; intros seen Hk; [done|].
  rewrite !settle_cons, consume_first_cons.
  assert (∀ c : bool, key (if c then consume p else p) = key p) as Hkey
    by (by intros []).
  destruct (decide (key p = k)) as [Hp|Hp].
  - rewrite decide_True by (by case_decide).
    rewrite settle_seen by (rewrite Hp; apply list_elem_of_here). f_equal.
    rewrite (decide_True (P := key p ∈ ks ++ [k] ∧ key p ∉ seen)).
    + by case_decide.
    + rewrite Hp. split; [|done]. apply elem_of_app. right. apply list_elem_of_here.
  - rewrite decide_False by (by case_decide).
    rewrite IH. 2:{ intros [?|?]%elem_of_cons; [congruence|done]. }
    f_equal. apply decide_ext.
    rewrite elem_of_app, list_elem_of_singleton. tauto.
Qed.

Lemma lookup_each_settle ks B :
  params_ (lookup_each ks B) = settle ks [] (params_ B).
Proof.
  induction ks as [|k ks IH] using rev_ind.
  - by rewrite settle_nil.
  - unfold lookup_each in *. rewrite foldl_app. simpl.
    rewrite get_consume_first, IH. apply consume_first_settle.
    apply not_elem_of_nil.
Qed.

Lemma getUnused_settle ks seen l :
  Forall (λ p, isConsumed p = false) l →
  (∀ k, k ∈ key <$> l → k ∈ ks) →
  getUnused {| params_ := settle ks seen l |} = []
  ↔ NoDup (key <$> l) ∧ ∀ k, k ∈ key <$> l → k ∉ seen.
Proof.
  rewrite getUnused_filter. simpl.
  revert seen. induction l as [|p l IH]; intros seen Hfresh Hks.
  - simpl. split; [|done]. intros _. split; [constructor|].
    intros k Hk. by apply elem_of_nil in Hk.
  - apply Forall_cons in Hfresh as [Hp Hfresh]. rewrite settle_cons, fmap_cons.
    assert (key p ∈ ks) as Hpks by (apply Hks; simpl; apply list_elem_of_here).
    assert (∀ k, k ∈ key <$> l → k ∈ ks) as Hks'
      by (intros k Hk; apply Hks; simpl; by apply list_elem_of_further).
    destruct (decide (key p ∈ seen)) as [Hseen|Hseen].
    + rewrite decide_False by tauto.
      rewrite filter_cons_True by done. simpl. split; [done|].
      intros [_ Hno]. destruct (Hno (key p)); [apply list_elem_of_here|done].
    + rewrite decide_True by done.
      rewrite filter_cons_False by (simpl; congruence).
      rewrite (IH (key p :: seen) Hfresh Hks'), NoDup_cons.
      split.
      * intros [Hnd Hno]. split; [split; [|done]|].
        -- intros Hin. apply (Hno _ Hin). apply list_elem_of_here.
        -- intros k [->|Hk]%elem_of_cons; [done|].
           intros Hin. apply (Hno _ Hk). by apply list_elem_of_further.
      * intros [[Hnotin Hnd] Hno]. split; [done|].
        intros k Hk [->|Hin]%elem_of_cons; [done|].
        apply (Hno k); [by apply list_elem_of_further|done].
Qed.

(** C5, as the code has it.  Before any lookup [getUnused] returns every
    key of the bag, in order.  After every key has been looked up,
    [getUnused] is empty exactly when the keys of the bag are pairwise
    distinct: a lookup consumes only the first entry of its key, so a
    later entry with the same key is never consumed and is still
    reported. *)
Theorem getUnused_before_and_after_lookups (B : t) (ks : list Z) :
  unconsumed B →
  (∀ k, k ∈ keys B → k ∈ ks) →
  getUnused B = keys B ∧
  (getUnused (lookup_each ks B) = [] ↔ NoDup (keys B)).
Proof.
  intros Hfresh Hks. split.
  - rewrite getUnused_filter. unfold keys. f_equal.
    induction Hfresh as [|p l Hp _ IH]; [done|].
    by rewrite filter_cons_True, IH.
  - destruct (lookup_each ks B) as [l'] eqn:E.
    assert (l' = settle ks [] (params_ B)) as ->
      by (by rewrite <- lookup_each_settle, E).
    rewrite (getUnused_settle ks [] (params_ B) Hfresh Hks).
    split; [tauto|]. intros Hnd. split; [done|]. intros k _. apply not_elem_of_nil.
Qed.

Lemma getUnused_before_and_after_lookups_witness :
  getUnused scenario = keys scenario ∧
  (getUnused (lookup_each [10; 20] scenario) = [] ↔ NoDup (keys scenario)).
Proof.
  apply (getUnused_before_and_after_lookups scenario [10; 20]).
  - unfold unconsumed, scenario. simpl. repeat constructor.
  - intros k Hk. exact Hk.
Defined.

(** C5, as the design document states it, fails: the bag built from
    [10, 1, 10, 2] has the single key 10, and after that key has been
    looked up [getUnused] still returns [10], for the second entry. *)
Lemma getUnused_after_lookups_duplicate_key :
  ¬ (∀ (B : t) (ks : list Z),
       unconsumed B → (∀ k, k ∈ keys B → k ∈ ks) →
       getUnused (lookup_each ks B) = []).
Proof.
  intros Hclaim. specialize (Hclaim duplicate_bag [10]).
  assert (getUnused (lookup_each [10] duplicate_bag) = [10]) as Hrun
    by reflexivity.
  rewrite Hclaim in Hrun; [discriminate Hrun| |].
  - unfold unconsumed, duplicate_bag. simpl. repeat constructor.
  - unfold keys, duplicate_bag. simpl. intros k Hk.
    apply elem_of_cons in Hk as [->|Hk]; [apply list_elem_of_here|exact Hk].
Qed.

(** The end-to-end scenario of the design document. *)
Example scenario_run :
  ctor [10; 1; 20; 0] = Returns scenario ∧
  has 10 scenario = true ∧
  (get (H := castParameterTo_bool) 10 scenario).2 = Returns true ∧
  (get (H := castParameterTo_bool) 20 scenario).2 = Returns false ∧
  has 30 scenario = false ∧
  (get_or (H := castParameterTo_primary) 30 (Int 99) scenario).2 = Int 99 ∧
  getUnused (get (H := castParameterTo_bool) 10 scenario).1 = [20].
Proof. repeat split. Qed.

Example duplicate_bag_run :
  ctor [10; 1; 10; 2] = Returns duplicate_bag ∧
  (get (H := castParameterTo_primary) 10 duplicate_bag).2 = Returns (Int 1) ∧
  getUnused (get (H := castParameterTo_primary (T := int)) 10 duplicate_bag).1 = [10].
Proof. repeat split. Qed.

Example static_cast_wraps :
  static_cast (T := unsigned_int) (-1) = UInt 4294967295 ∧
  static_cast (T := uchar) 300 = UChar 44 ∧
  static_cast (T := short) 40000 = Short (-25536).
Proof. repeat split. Qed.

End VideoParametersFacts.

(** * Properties of the legacy adapters *)

Module LegacyFacts.
Section Facts.
Context `{L : Legacy}.

(** C2.  When the wrapped object hands out a raw image, [retrieveFrame]
    succeeds; an image tagged top-to-bottom is copied to the output as it
    is, an image tagged bottom-to-top is flipped vertically, output row
    [r] being source row [height - 1 - r]; either way the output holds
    the rows of the picture from top to bottom. *)
Theorem retrieveFrame_orientation
    (self : LegacyCapture.t) (channel : Z) (image : Mat) (w w' : World)
    (img : IplImage) :
  IPL_ORIGIN_TL ≠ IPL_ORIGIN_BL →
  cvRetrieveFrame (LegacyCapture.cap self) channel w = (w', Some img) →
  ∃ out : Mat,
    LegacyCapture.retrieveFrame self channel image w = (w', out, true) ∧
    (origin img = IPL_ORIGIN_TL → data out = imageData img) ∧
    (origin img = IPL_ORIGIN_BL →
       Mat_rows out = height img ∧
       ∀ r, (r < height img)%nat →
            data out !! r = imageData img !! (height img - 1 - r)%nat) ∧
    (origin img = IPL_ORIGIN_TL ∨ origin img = IPL_ORIGIN_BL →
       data out = top_down_rows img).
Proof.
  intros Hne Hret. unfold LegacyCapture.retrieveFrame. rewrite Hret.
  unfold top_down_rows.
  destruct (decide (origin img = IPL_ORIGIN_TL)) as [Htl|Htl].
  - eexists. split; [done|]. simpl. split_and!.
    + done.
    + intros Hbl. congruence.
    + intros _. rewrite decide_False by congruence. done.
  - eexists. split; [done|]. simpl. split_and!.
    + done.
    + intros Hbl. unfold Mat_rows, height. simpl. split.
      * apply length_reverse.
      * intros r Hr. rewrite reverse_lookup by done. f_equal. lia.
    + intros [?|Hbl]; [done|]. by rewrite decide_True.
Qed.

(** C6.  When the wrapped object hands out no image, [retrieveFrame]
    returns false and the output buffer is left released: it has no rows
    and no data, whatever it held before the call. *)
Theorem retrieveFrame_no_frame
    (self : LegacyCapture.t) (channel : Z) (image : Mat) (w w' : World) :
  cvRetrieveFrame (LegacyCapture.cap self) channel w = (w', None) →
  ∃ out : Mat,
    LegacyCapture.retrieveFrame self channel image w = (w', out, false) ∧
    out = release image ∧ data out = [] ∧ Mat_rows out = 0%nat.
Proof.
  intros Hret. unfold LegacyCapture.retrieveFrame. rewrite Hret.
  by eexists.
Qed.

(** C7.  [isOpened] of either adapter is false exactly when the pointer to
    the wrapped object is null and true otherwise.  It reads the pointer
    only, not the state of the legacy objects, so it does not depend on
    what a later grab or write will do. *)
Theorem isOpened_iff_attached :
  (∀ self : LegacyCapture.t,
     (LegacyCapture.isOpened self = false ↔ LegacyCapture.cap self = None) ∧
     (LegacyCapture.isOpened self = true ↔ is_Some (LegacyCapture.cap self))) ∧
  (∀ self : LegacyWriter.t,
     (LegacyWriter.isOpened self = false ↔ LegacyWriter.writer self = None) ∧
     (LegacyWriter.isOpened self = true ↔ is_Some (LegacyWriter.writer self))).
Proof.
  split; intros [[x|]]; simpl; unfold LegacyCapture.isOpened, LegacyWriter.isOpened;
    simpl; (split; split; intros H; try done; try (by eexists); by destruct H).
Qed.

(** C8, as the code has it.  [getCaptureDomain] of the capture adapter is
    the answer of the wrapped object when there is one (for a plain
    [CvCapture] that answer is [cv::CAP_ANY]), and 0, with the world
    untouched, when the pointer is null. *)
Theorem getCaptureDomain_delegates_or_zero :
  (∀ (c : CvCapture) (w : World),
     LegacyCapture.getCaptureDomain {| LegacyCapture.cap := Some c |} w
     = CvCapture_getCaptureDomain c w) ∧
  (∀ w : World,
     LegacyCapture.getCaptureDomain {| LegacyCapture.cap := None |} w = (w, 0)) ∧
  (∀ CAP_ANY tl bl : Z,
     LegacyCapture.getCaptureDomain
       (LegacyCapture.ctor (L := stateless_legacy tl bl)
          (Some (CvCaptureBase.object CAP_ANY))) tt
     = (tt, CAP_ANY)).
Proof. done. Qed.

(** C9.  [setProperty] of the writer adapter reports failure for every
    property and value, with or without a wrapped writer, and touches
    nothing. *)
Theorem LegacyWriter_setProperty_fails
    (self : LegacyWriter.t) (propId : Z) (value : float) (w : World) :
  LegacyWriter.setProperty self propId value w = (w, false).
Proof. done. Qed.

(** C10.  On a capture adapter whose pointer is null, [grabFrame] returns
    false and [getProperty] returns 0.  This holds whatever the entry
    points and the legacy objects do, and the world is left as it was:
    the null branch calls none of them. *)
Theorem null_capture_grabFrame_getProperty (w : World) (propId : Z) :
  LegacyCapture.grabFrame {| LegacyCapture.cap := None |} w = (w, false) ∧
  LegacyCapture.getProperty {| LegacyCapture.cap := None |} propId w = 0%float.
Proof. done. Qed.

End Facts.

Lemma retrieveFrame_orientation_witness :
  ∃ out : Mat,
    LegacyCapture.retrieveFrame (L := stateless_legacy 0 1)
      (LegacyCapture.ctor (L := stateless_legacy 0 1) (Some (still_capture 0 (bottom_up_image 1))))
      0 stale_frame tt = (tt, out, true) ∧
    data out = [[Byte.x01; Byte.x01]; [Byte.x02; Byte.x02]; [Byte.x03; Byte.x03]].
Proof.
  destruct (retrieveFrame_orientation (L := stateless_legacy 0 1)
              (LegacyCapture.ctor (L := stateless_legacy 0 1) (Some (still_capture 0 (bottom_up_image 1))))
              0 stale_frame tt tt (bottom_up_image 1))
    as (out & Hout & _ & _ & Htop).
  - simpl. lia.
  - reflexivity.
  - exists out. split; [exact Hout|]. apply Htop. right. reflexivity.
Defined.

Lemma retrieveFrame_no_frame_witness :
  ∃ out : Mat,
    LegacyCapture.retrieveFrame (L := stateless_legacy 0 1)
      (LegacyCapture.ctor (L := stateless_legacy 0 1) (Some (CvCaptureBase.object 0)))
      0 stale_frame tt = (tt, out, false) ∧
    out = release stale_frame ∧ data out = [] ∧ Mat_rows out = 0%nat.
Proof.
  apply (retrieveFrame_no_frame (L := stateless_legacy 0 1)
           (LegacyCapture.ctor (L := stateless_legacy 0 1) (Some (CvCaptureBase.object 0)))
           0 stale_frame tt tt).
  reflexivity.
Defined.

(** An adapter around a capture that has run out of frames still reports
    itself opened, and hands out no stale frame. *)
Example exhausted_capture_run :
  let self := LegacyCapture.ctor (L := stateless_legacy 0 1)
                (Some (exhausted_capture 0)) in
  LegacyCapture.isOpened self = true ∧
  LegacyCapture.grabFrame self tt = (tt, false) ∧
  LegacyCapture.retrieveFrame self 0 stale_frame tt = (tt, {| data := [] |}, false).
Proof. repeat split. Qed.

(** C8, as the design document states it, does not follow from this
    file: the 0 of the null branch is distinct from the "any" sentinel
    only if [cv::CAP_ANY] is not 0, and videoio.hpp declares it as 0.
    With that value an adapter without an object answers exactly what
    [CvCapture::getCaptureDomain] answers. *)
Lemma getCaptureDomain_null_not_distinct_from_any :
  ¬ (∀ CAP_ANY tl bl : Z,
       (LegacyCapture.getCaptureDomain (L := stateless_legacy tl bl)
          (LegacyCapture.ctor (L := stateless_legacy tl bl) None) tt).2
       ≠ CvCaptureBase.getCaptureDomain CAP_ANY).
Proof. intros Hclaim. by apply (Hclaim 0 0 1). Qed.

End LegacyFacts.

(** * Further properties of the parameter bag *)

Module VideoParametersMore.
Import VideoParameters VideoParametersFacts.

Implicit Types (B self : t) (l : list VideoParameter) (k v : Z).

(** *** Helpers *)

Lemma find_key_add k k' v' B :
  find_key k (add k' v' B)
  = match find_key k B with
    | Some r => Some r
    | None => if decide (k' = k)
              then Some (length (params_ B), VideoParameter_ctor k' v')
              else None
    end.
Proof.
  unfold find_key. simpl.
  destruct (list_find (λ param, key param = k) (params_ B)) as [[i it]|] eqn:E.
  - by apply list_find_app_l.
  - rewrite list_find_app_r by done. simpl. by case_decide.
Qed.

Lemma mark_add i k v B :
  (i < length (params_ B))%nat → mark i (add k v B) = add k v (mark i B).
Proof. intros Hi. unfold mark, add. simpl. f_equal. by apply alter_app_l. Qed.

Lemma find_key_lt k B i it :
  find_key k B = Some (i, it) → (i < length (params_ B))%nat.
Proof. intros (Hi & _)%find_key_Some. by eapply lookup_lt_Some. Qed.

Lemma flat_pairs_inj l1 l2 :
  Forall (λ p, isConsumed p = false) l1 →
  Forall (λ p, isConsumed p = false) l2 →
  (l1 ≫= λ p, [key p; value p]) = (l2 ≫= λ p, [key p; value p]) →
  l1 = l2.
Proof.
  intros H1. revert l2. induction H1 as [|p l1 Hp _ IH]; intros l2 H2 Heq.
  - destruct l2; [done|]. discriminate Heq.
  - destruct H2 as [|q l2 Hq H2]; [discriminate Heq|].
    rewrite !bind_cons in Heq. simpl in Heq. injection Heq as Hk Hv Hrest.
    f_equal; [|by apply IH].
    destruct p, q. simpl in *. congruence.
Qed.

Lemma getIntVector_inj B1 B2 :
  unconsumed B1 → unconsumed B2 → getIntVector B1 = getIntVector B2 → B1 = B2.
Proof.
  destruct B1 as [l1], B2 as [l2]. rewrite !getIntVector_bind. simpl.
  intros H1 H2 Heq. f_equal. by apply flat_pairs_inj.
Qed.

Lemma getIntVector_length B :
  length (getIntVector B) = (2 * length (params_ B))%nat.
Proof.
  rewrite getIntVector_bind. induction (params_ B) as [|p l IH]; [done|].
  rewrite bind_cons, length_app, IH. simpl. lia.
Qed.


(** The keys still unused after one lookup, on the list of entries. *)
Lemma unused_consume_first k l :
  let U := λ l, key <$> filter (λ p, isConsumed p = false) l in
  U (consume_first k l) = U l ∨
  ∃ u1 u2 : list Z, U l = u1 ++ k :: u2 ∧ U (consume_first k l) = u1 ++ u2 ∧ k ∉ u1.
Proof.
  intros U. unfold U. induction l as [|p l IH]; [by left|].
  rewrite consume_first_cons. destruct (decide (key p = k)) as [Hk|Hk].
  - rewrite (filter_cons_False _ (consume p)) by (simpl; congruence).
    destruct (isConsumed p) eqn:Hp.
    + left. by rewrite filter_cons_False by congruence.
    + right. exists [], (key <$> filter (λ p, isConsumed p = false) l).
      rewrite filter_cons_True by done. rewrite fmap_cons, Hk.
      split_and!; [done..|]. apply not_elem_of_nil.
  - destruct (isConsumed p) eqn:Hp.
    + rewrite !(filter_cons_False _ p) by congruence. exact IH.
    + rewrite !(filter_cons_True _ p) by done. rewrite !fmap_cons.
      destruct IH as [->|(u1 & u2 & -> & -> & Hu1)]; [by left|].
      right. exists (key p :: u1), u2. split_and!; [done..|].
      intros [?|?]%elem_of_cons; [congruence|done].
Qed.

Lemma settle_ext ks ks' seen l :
  (∀ k, k ∈ ks ↔ k ∈ ks') → settle ks seen l = settle ks' seen l.
Proof.
  intros Hks. revert seen. induction l as [|p l IH]; intros seen; [done|].
  rewrite !settle_cons, IH. f_equal. apply decide_ext. by rewrite Hks.
Qed.

(** *** Presence *)

(** X1.  [has(k)] is true exactly when some entry has the key [k], and it
    tells what the required [get<T>(k)] will do: where [has] is true
    [get] returns a value, where it is false [get] throws and leaves the
    bag alone. *)
Theorem has_guards_get {T} (C : CastParameter T) (B : t) (k : Z) :
  (has k B = true ↔ k ∈ keys B) ∧
  (has k B = true ↔ ∃ B' x, get (H := C) k B = (B', Returns x)) ∧
  (has k B = false ↔ ∃ e, get (H := C) k B = (B, Throws e)).
Proof.
  unfold has, get. destruct (find_key k B) as [[i it]|] eqn:E.
  - split_and!.
    + split; [|done]. intros _. destruct (decide (k ∈ keys B)) as [|Hn]; [done|].
      apply find_key_None in Hn. congruence.
    + split; [eauto|done].
    + split; [done|]. intros [e He]. discriminate He.
  - split_and!.
    + split; [done|]. intros Hin. by apply find_key_None in E.
    + split; [done|]. intros (B' & x & Hget). discriminate Hget.
    + split; [eauto|done].
Qed.

(** *** Adding and looking up *)

(** X2.  Looking up a key right after adding it: when the bag did not
    have the key, [get] returns the value just added and consumes the new
    last entry; when the bag had it already, the earlier entry answers
    and the added one stays unconsumed. *)
Theorem get_after_add {T} (C : CastParameter T) (B : t) (k v : Z) :
  (k ∉ keys B →
   get (H := C) k (add k v B)
   = ({| params_ := params_ B ++ [{| key := k; value := v; isConsumed := true |}] |},
      Returns (castParameterTo v))) ∧
  (∀ B' x, get (H := C) k B = (B', Returns x) →
           get (H := C) k (add k v B) = (add k v B', Returns x)).
Proof.
  split.
  - intros Hk%find_key_None. unfold get. rewrite find_key_add, Hk.
    rewrite decide_True by done. f_equal. unfold mark, add. simpl. f_equal.
    rewrite alter_app_r_alt by done. by rewrite Nat.sub_diag.
  - intros B' x. unfold get. rewrite find_key_add.
    destruct (find_key k B) as [[i it]|] eqn:E; [|discriminate].
    intros [= <- <-]. by rewrite mark_add by (by eapply find_key_lt).
Qed.

(** X3.  Adding an entry with another key and looking a key up commute:
    the lookup returns the same result and consumes the same entry
    whether the other entry is added before or after it. *)
Theorem get_add_commute {T} (C : CastParameter T) (B : t) (k k' v' : Z) :
  k ≠ k' →
  get (H := C) k (add k' v' B)
  = (add k' v' (get (H := C) k B).1, (get (H := C) k B).2).
Proof.
  intros Hne. unfold get. rewrite find_key_add.
  destruct (find_key k B) as [[i it]|] eqn:E; simpl.
  - by rewrite mark_add by (by eapply find_key_lt).
  - by rewrite decide_False by congruence.
Qed.

Lemma get_add_commute_witness :
  get (H := castParameterTo_bool) 10 (add 30 7 scenario)
  = (add 30 7 (get (H := castParameterTo_bool) 10 scenario).1,
     (get (H := castParameterTo_bool) 10 scenario).2).
Proof. apply (get_add_commute castParameterTo_bool scenario 10 30 7). lia. Defined.

(** *** Flat pairs *)

(** X4.  The round trip the other way: the flat vector of a bag none of
    whose entries is consumed builds that same bag again. *)
Theorem ctor_of_getIntVector (B : t) :
  unconsumed B → ctor (getIntVector B) = Returns B.
Proof.
  intros HB.
  destruct (ctor_even (getIntVector B)) as (B' & Hctor & Hvec & HB').
  { exists (length (params_ B)). apply getIntVector_length. }
  rewrite Hctor. f_equal. by apply getIntVector_inj.
Qed.

Lemma ctor_of_getIntVector_witness :
  ctor (getIntVector duplicate_bag) = Returns duplicate_bag.
Proof.
  apply (ctor_of_getIntVector duplicate_bag).
  unfold unconsumed, duplicate_bag. simpl. repeat constructor.
Defined.


(** X6.  The optional [get] agrees with the required one wherever that
    one succeeds: same value, same bag afterwards, the default ignored. *)
Theorem get_or_agrees_with_get {T} (C : CastParameter T)
    (B B' : t) (k : Z) (d x : T) :
  get (H := C) k B = (B', Returns x) → get_or (H := C) k d B = (B', x).
Proof.
  unfold get, get_or. destruct (find_key k B) as [[i it]|]; [|discriminate].
  by intros [= <- <-].
Qed.

Lemma get_or_agrees_with_get_witness :
  get_or (H := castParameterTo_bool) 10 false scenario
  = ((get (H := castParameterTo_bool) 10 scenario).1, true).
Proof.
  apply (get_or_agrees_with_get castParameterTo_bool scenario). reflexivity.
Defined.

(** *** Unused keys *)

(** X7.  One lookup of [k] either leaves the list of unused keys as it
    is, or removes from it the first occurrence of [k] and nothing else. *)
Theorem getUnused_after_get {T} (C : CastParameter T) (B : t) (k : Z) :
  getUnused (get (H := C) k B).1 = getUnused B ∨
  ∃ u1 u2 : list Z,
    getUnused B = u1 ++ k :: u2 ∧
    getUnused (get (H := C) k B).1 = u1 ++ u2 ∧
    k ∉ u1.
Proof.
  rewrite !getUnused_filter, get_consume_first. apply unused_consume_first.
Qed.

(** X8.  [warnUnusedParameters] logs the key and value of exactly the
    unconsumed entries, in order; the keys it logs are those of
    [getUnused], and it returns true exactly when there is one. *)
Theorem warnUnusedParameters_logs_unused (B : t) :
  (warnUnusedParameters B).1
  = (λ p, (key p, value p)) <$> filter (λ p, isConsumed p = false) (params_ B) ∧
  (warnUnusedParameters B).1.*1 = getUnused B ∧
  ((warnUnusedParameters B).2 = true ↔ getUnused B ≠ []).
Proof.
  assert (∀ l (log : list (Z * Z)) (found : bool),
    foldl (λ '(log, found) param,
             if negb (isConsumed param)
             then (log ++ [(key param, value param)], true)
             else (log, found)) (log, found) l
    = (log ++ ((λ p, (key p, value p)) <$> filter (λ p, isConsumed p = false) l),
       found || bool_decide (filter (λ p, isConsumed p = false) l ≠ []))) as Hfold.
  { induction l as [|p l IH]; intros log found; simpl.
    - by rewrite app_nil_r, orb_false_r.
    - destruct (isConsumed p) eqn:Hp; simpl; rewrite IH.
      + by rewrite filter_cons_False by congruence.
      + rewrite filter_cons_True by done. rewrite fmap_cons, <- app_assoc.
        by rewrite orb_true_r. }
  unfold warnUnusedParameters. rewrite Hfold, getUnused_filter. simpl.
  split_and!; [done| |].
  - by rewrite <- list_fmap_compose.
  - rewrite bool_decide_eq_true.
    by destruct (filter (λ p, isConsumed p = false) (params_ B)).
Qed.

(** X9.  The unconsumed entries after a series of lookups depend on which
    keys were looked up, not on the order or on how often: two series
    with the same keys leave the same bag. *)
Theorem lookup_each_order_irrelevant (B : t) (ks ks' : list Z) :
  (∀ k, k ∈ ks ↔ k ∈ ks') → lookup_each ks B = lookup_each ks' B.
Proof.
  intros Hks.
  destruct (lookup_each ks B) as [l1] eqn:E1, (lookup_each ks' B) as [l2] eqn:E2.
  f_equal.
  assert (l1 = settle ks [] (params_ B)) as ->
    by (by rewrite <- lookup_each_settle, E1).
  assert (l2 = settle ks' [] (params_ B)) as ->
    by (by rewrite <- lookup_each_settle, E2).
  by apply settle_ext.
Qed.

Lemma lookup_each_order_irrelevant_witness :
  lookup_each [10; 20; 10] scenario = lookup_each [20; 10] scenario.
Proof.
  apply (lookup_each_order_irrelevant scenario [10; 20; 10] [20; 10]).
  intros k. rewrite !elem_of_cons, !elem_of_nil. tauto.
Defined.

(** *** Emptiness *)

(** X10.  [empty] is true exactly when the flat vector is empty; an empty
    bag has no key, a bag is not empty after [add], and a constructed bag
    is empty exactly when the vector it was built from is. *)
Theorem empty_iff_no_pairs (B : t) :
  (empty B = true ↔ getIntVector B = []) ∧
  (empty B = true → ∀ k, has k B = false) ∧
  (∀ k v, empty (add k v B) = false) ∧
  (∀ S, ctor S = Returns B → (empty B = true ↔ S = [])).
Proof.
  assert (empty B = true ↔ getIntVector B = []) as Hempty.
  { rewrite getIntVector_bind. unfold empty.
    destruct (params_ B) as [|p l]; [done|]. rewrite bind_cons. done. }
  split_and!; [done| | |].
  - unfold empty, has, find_key. by destruct (params_ B).
  - intros k v. unfold empty, add. simpl. by destruct (params_ B).
  - intros S HS. rewrite Hempty.
    destruct (Nat.Even_or_Odd (length S)) as [Hev|Hodd].
    + destruct (ctor_even S Hev) as (B' & HB' & Hvec & _).
      rewrite HS in HB'. injection HB' as <-. by rewrite Hvec.
    + rewrite (ctor_odd S Hodd) in HS. discriminate HS.
Qed.

(** *** The pointer constructor *)

Lemma wrap_unsigned_small z : 0 ≤ z < 2 ^ 32 → wrap_unsigned 32 z = z.
Proof. intros Hz. unfold wrap_unsigned. by apply Z.mod_small. Qed.

(** While the pairs lie inside the array the loop reads them in order. *)
Lemma ctor_ptr_loop_returns (arr : list Z) (n : Z) (m : nat) :
  ∀ (i : Z) (fuel : nat) self,
    0 ≤ i → i + Z.of_nat m = n → n ≤ 2 ^ 31 → 2 * n ≤ Z.of_nat (length arr) → (m ≤ fuel)%nat →
    ∃ B, ctor_ptr_loop fuel arr n i self = Returns B
         ∧ getIntVector B
           = getIntVector self ++ drop (Z.to_nat (2 * i)) (take (Z.to_nat (2 * n)) arr)
         ∧ (unconsumed self → unconsumed B).
Proof.
  induction m as [|m IH]; intros i fuel self Hi Him Hn Hlen Hfuel.
  - exists self. assert (i = n) as -> by lia.
    rewrite drop_ge, app_nil_r by (rewrite length_take; lia).
    destruct fuel; simpl; (case_decide; [lia|done]).
  - destruct fuel as [|fuel]; [lia|]. simpl. case_decide; [|lia].
    rewrite (wrap_unsigned_small (2 * i)) by lia.
    rewrite (wrap_unsigned_small (2 * i + 1)) by lia.
    rewrite (wrap_unsigned_small (i + 1)) by lia.
    destruct (lookup_lt_is_Some_2 arr (Z.to_nat (2 * i))) as [k Hk]; [lia|].
    destruct (lookup_lt_is_Some_2 arr (Z.to_nat (2 * i + 1))) as [v Hv]; [lia|].
    rewrite Hk, Hv.
    destruct (IH (i + 1) fuel (add k v self)) as (B & HB & Hvec & Hun); [lia..|].
    exists B. split; [done|]. split.
    + rewrite Hvec, getIntVector_add, <- app_assoc. f_equal.
      rewrite (drop_S _ k (Z.to_nat (2 * i))) by (rewrite lookup_take_lt by lia; done).
      rewrite (drop_S _ v (S (Z.to_nat (2 * i)))).
      2:{ rewrite lookup_take_lt by lia.
          by replace (S (Z.to_nat (2 * i))) with (Z.to_nat (2 * i + 1)) by lia. }
      simpl. do 3 f_equal. lia.
    + intros Hs. by apply Hun, unconsumed_add.
Qed.

(** X11.  For up to 2^31 pairs that lie inside the array, the pointer
    constructor builds the bag the vector constructor builds from the
    first [2 * n_params] integers of the array; it never throws. *)
Theorem ctor_ptr_agrees_with_ctor (arr : list Z) (n_params : Z) :
  0 ≤ n_params ≤ 2 ^ 31 → 2 * n_params ≤ Z.of_nat (length arr) →
  ctor_ptr arr n_params = ctor (take (Z.to_nat (2 * n_params)) arr).
Proof.
  intros Hn Hlen. unfold ctor_ptr.
  destruct (ctor_ptr_loop_returns arr n_params (Z.to_nat n_params) 0
              (Z.to_nat n_params) default)
    as (B & -> & Hvec & HB); [lia..|].
  destruct (ctor_even (take (Z.to_nat (2 * n_params)) arr))
    as (B' & -> & Hvec' & HB').
  { exists (Z.to_nat n_params). rewrite length_take. lia. }
  f_equal. apply getIntVector_inj; [apply HB; constructor|done|].
  by rewrite Hvec, Hvec'.
Qed.

Lemma ctor_ptr_agrees_with_ctor_witness :
  ctor_ptr [10; 1; 20; 0; 99] 2 = ctor (take (Z.to_nat (2 * 2)) [10; 1; 20; 0; 99]).
Proof.
  apply (ctor_ptr_agrees_with_ctor [10; 1; 20; 0; 99] 2); simpl; lia.
Defined.

Lemma ctor_ptr_loop_undefined (arr : list Z) (n : Z) (m : nat) :
  ∀ (i : Z) (fuel : nat) self,
    0 ≤ i → i + Z.of_nat m = n → n ≤ 2 ^ 31 → 2 * i ≤ Z.of_nat (length arr) < 2 * n → (m ≤ fuel)%nat →
    ctor_ptr_loop fuel arr n i self = Undefined.
Proof.
  induction m as [|m IH]; intros i fuel self Hi Him Hn Hlen Hfuel; [lia|].
  destruct fuel as [|fuel]; [lia|]. simpl. case_decide; [|lia].
  rewrite (wrap_unsigned_small (2 * i)) by lia.
  rewrite (wrap_unsigned_small (2 * i + 1)) by lia.
  rewrite (wrap_unsigned_small (i + 1)) by lia.
  destruct (arr !! Z.to_nat (2 * i)) as [k|]; [|done].
  destruct (arr !! Z.to_nat (2 * i + 1)) as [v|] eqn:Hv; [|done].
  apply lookup_lt_Some in Hv. apply IH; lia.
Qed.

(** X12.  When the array holds fewer than [2 * n_params] integers the
    pointer constructor reads past its end: unlike the vector
    constructor it has no length check, and the behaviour is undefined. *)
Theorem ctor_ptr_reads_past_end (arr : list Z) (n_params : Z) :
  0 ≤ n_params ≤ 2 ^ 31 → Z.of_nat (length arr) < 2 * n_params →
  ctor_ptr arr n_params = Undefined.
Proof.
  intros Hn Hlen. unfold ctor_ptr.
  apply (ctor_ptr_loop_undefined arr n_params (Z.to_nat n_params)); lia.
Qed.

Lemma ctor_ptr_reads_past_end_witness : ctor_ptr [10; 1; 20] 2 = Undefined.
Proof. apply (ctor_ptr_reads_past_end [10; 1; 20] 2); simpl; lia. Defined.

(** *** From the vector to the lookups *)

Lemma flat_pairs_lookup l (i : nat) :
  (l ≫= λ p, [key p; value p]) !! (2 * i)%nat = key <$> l !! i ∧
  (l ≫= λ p, [key p; value p]) !! (2 * i + 1)%nat = value <$> l !! i.
Proof.
  revert i. induction l as [|p l IH]; intros i; [done|].
  rewrite bind_cons. destruct i as [|i]; [done|].
  replace (2 * S i)%nat with (S (S (2 * i))) by lia.
  replace (S (S (2 * i)) + 1)%nat with (S (S (2 * i + 1))) by lia.
  simpl. apply IH.
Qed.

(** X16.  What a lookup finds in a constructed bag, in terms of the
    vector it was built from: [get<T>(k)] returns the integer that follows
    the first occurrence of [k] at an even position. *)
Theorem get_of_ctor {T} (C : CastParameter T) (S : list Z) (B : t)
    (k v : Z) (i : nat) :
  ctor S = Returns B →
  S !! (2 * i)%nat = Some k →
  S !! (2 * i + 1)%nat = Some v →
  (∀ j, (j < i)%nat → S !! (2 * j)%nat ≠ Some k) →
  (get (H := C) k B).2 = Returns (castParameterTo v).
Proof.
  intros HS Hk Hv Hfirst.
  assert (getIntVector B = S) as HB.
  { destruct (Nat.Even_or_Odd (length S)) as [Hev|Hodd].
    - destruct (ctor_even S Hev) as (B' & HB' & Hvec & _).
      rewrite HS in HB'. by injection HB' as <-.
    - rewrite (ctor_odd S Hodd) in HS. discriminate HS. }
  rewrite getIntVector_bind in HB. subst S.
  destruct (flat_pairs_lookup (params_ B) i) as [Hki Hvi].
  rewrite Hki in Hk. rewrite Hvi in Hv.
  destruct (params_ B !! i) as [p|] eqn:Hp; [|discriminate Hk].
  simpl in Hk, Hv. injection Hk as Hk. injection Hv as Hv.
  assert (find_key k B = Some (i, p)) as Hfind.
  { apply find_key_Some. split_and!; [done..|].
    intros j q Hq Hj Hkq. apply (Hfirst j Hj).
    destruct (flat_pairs_lookup (params_ B) j) as [-> _]. rewrite Hq. simpl.
    by rewrite Hkq. }
  unfold get. rewrite Hfind. simpl. by rewrite Hv.
Qed.

Lemma get_of_ctor_witness :
  (get (H := castParameterTo_primary) 10 duplicate_bag).2 = Returns (Int 1).
Proof.
  apply (get_of_ctor castParameterTo_primary [10; 1; 10; 2] duplicate_bag 10 1 0).
  - reflexivity.
  - reflexivity.
  - reflexivity.
  - intros j Hj. lia.
Defined.

(** X17.  [add] appends and touches nothing else: the flat vector gains
    the pair at its end, the unused keys gain the key at their end, the
    key is present afterwards, and the presence of every other key is as
    before. *)
Theorem add_appends (B : t) (k v : Z) :
  getIntVector (add k v B) = getIntVector B ++ [k; v] ∧
  getUnused (add k v B) = getUnused B ++ [k] ∧
  has k (add k v B) = true ∧
  (∀ k', k' ≠ k → has k' (add k v B) = has k' B).
Proof.
  split_and!.
  - apply getIntVector_add.
  - rewrite !getUnused_filter. simpl. by rewrite filter_app, fmap_app.
  - unfold has. rewrite find_key_add.
    destruct (find_key k B); [done|]. by rewrite decide_True.
  - intros k' Hk'. unfold has. rewrite find_key_add.
    destruct (find_key k' B); [done|]. by rewrite decide_False by congruence.
Qed.

End VideoParametersMore.

(** * Further properties of the legacy adapters *)

Module LegacyMore.
Section Facts.
Context `{L : Legacy}.

(** X13.  [retrieveFrame] of the capture adapter returns true exactly
    when the entry point hands out an image; the legacy state after the
    call is the one the entry point leaves, and on failure the output is
    the released buffer. *)
Theorem retrieveFrame_succeeds_iff_image
    (self : LegacyCapture.t) (channel : Z) (image : Mat) (w : World) :
  let r := LegacyCapture.retrieveFrame self channel image w in
  let e := cvRetrieveFrame (LegacyCapture.cap self) channel w in
  r.1.1 = e.1 ∧
  (r.2 = true ↔ is_Some e.2) ∧
  (r.2 = false → r.1.2 = release image).
Proof.
  unfold LegacyCapture.retrieveFrame.
  destruct (cvRetrieveFrame (LegacyCapture.cap self) channel w) as [w' [img|]];
    simpl.
  - case_decide; simpl; (split_and!; [done|split; [by eexists|done]|done]).
  - split_and!; [done|split; [done|by intros [? ?]]|done].
Qed.

(** X14.  A retrieved frame keeps its rows: the output has as many rows
    as the raw image and the same rows up to their order, and for every
    origin tag other than the top-to-bottom one, whatever its value, the
    order is reversed. *)
Theorem retrieveFrame_keeps_rows
    (self : LegacyCapture.t) (channel : Z) (image : Mat) (w w' : World)
    (img : IplImage) :
  cvRetrieveFrame (LegacyCapture.cap self) channel w = (w', Some img) →
  ∃ out : Mat,
    LegacyCapture.retrieveFrame self channel image w = (w', out, true) ∧
    Mat_rows out = height img ∧
    data out ≡ₚ imageData img ∧
    (origin img ≠ IPL_ORIGIN_TL → data out = reverse (imageData img)).
Proof.
  intros Hret. unfold LegacyCapture.retrieveFrame. rewrite Hret.
  unfold Mat_rows, height. case_decide; eexists; (split; [done|]); simpl.
  - done.
  - split_and!; [apply length_reverse|apply reverse_Permutation|done].
Qed.

End Facts.

Lemma retrieveFrame_keeps_rows_witness :
  ∃ out : Mat,
    LegacyCapture.retrieveFrame (L := stateless_legacy 0 1)
      (LegacyCapture.ctor (L := stateless_legacy 0 1)
         (Some (still_capture 0 (bottom_up_image 7))))
      0 stale_frame tt = (tt, out, true) ∧
    data out = [[Byte.x01; Byte.x01]; [Byte.x02; Byte.x02]; [Byte.x03; Byte.x03]].
Proof.
  destruct (retrieveFrame_keeps_rows (L := stateless_legacy 0 1)
              (LegacyCapture.ctor (L := stateless_legacy 0 1)
                 (Some (still_capture 0 (bottom_up_image 7))))
              0 stale_frame tt tt (bottom_up_image 7))
    as (out & Hout & _ & _ & Hrev).
  - reflexivity.
  - exists out. split; [exact Hout|]. apply Hrev. simpl. lia.
Defined.

(** An adapter around a plain [CvCapture], whose members have the bodies
    of the base class, with entry points that forward to it: it reports
    itself opened and every grab succeeds, yet no frame is ever
    retrieved, no property is set, and every property reads 0. *)
Example plain_CvCapture_adapter
    (CAP_ANY tl bl channel propId : Z) (value : float) (image : Mat) :
  let self := LegacyCapture.ctor (L := stateless_legacy tl bl)
                (Some (CvCaptureBase.object CAP_ANY)) in
  LegacyCapture.isOpened self = true ∧
  LegacyCapture.grabFrame self tt = (tt, true) ∧
  LegacyCapture.retrieveFrame self channel image tt = (tt, release image, false) ∧
  LegacyCapture.setProperty self propId value tt = (tt, false) ∧
  LegacyCapture.getProperty self propId tt = 0%float ∧
  LegacyCapture.getCaptureDomain self tt = (tt, CAP_ANY).
Proof. done. Qed.

End LegacyMore.

(** * Printing a [VideoAccelerationType] *)

Module PrintFacts.

Lemma string_length_app (s t : string) :
  String.length (s +:+ t) = (String.length s + String.length t)%nat.
Proof. induction s as [|a s IH]; simpl; [done|]. by rewrite IH. Qed.

Lemma string_app_inv_tail (s1 s2 t : string) : s1 +:+ t = s2 +:+ t → s1 = s2.
Proof.
  revert s2. induction s1 as [|a s1 IH]; intros [|b s2] Heq.
  - done.
  - apply (f_equal String.length) in Heq.
    rewrite !string_length_app in Heq. simpl in Heq. lia.
  - apply (f_equal String.length) in Heq.
    rewrite !string_length_app in Heq. simpl in Heq. lia.
  - simpl in Heq. injection Heq as -> Heq. f_equal. by apply IH.
Qed.

Lemma wrap_unsigned_32_inj a b :
  int_range a → int_range b → wrap_unsigned 32 a = wrap_unsigned 32 b → a = b.
Proof.
  unfold int_range, wrap_unsigned. intros Ha Hb Heq.
  pose proof (Z.div_mod a (2 ^ 32)) as Hda. pose proof (Z.div_mod b (2 ^ 32)) as Hdb.
  pose proof (Z.mod_pos_bound a (2 ^ 32)) as Hba.
  rewrite Heq in Hda. lia.
Qed.

Lemma format_UNKNOWN_inj u1 u2 :
  0 ≤ uint_val u1 → 0 ≤ uint_val u2 →
  format_UNKNOWN u1 = format_UNKNOWN u2 → uint_val u1 = uint_val u2.
Proof.
  unfold format_UNKNOWN. intros H1 H2 Heq.
  apply (inj (String.app "UNKNOWN(0x")) in Heq.
  apply string_app_inv_tail in Heq. apply (inj pretty) in Heq. lia.
Qed.

(** X15.  The text written for a [VideoAccelerationType] tells the values
    apart: two different values of the enumeration's underlying [int]
    never print the same, whether they are enumerators or fall to the
    [UNKNOWN] line. *)
Theorem print_VideoAccelerationType_distinct `{VideoAccelerationTypes}
    (out : string) (a b : Z) :
  int_range a → int_range b → a ≠ b →
  print_VideoAccelerationType out a ≠ print_VideoAccelerationType out b.
Proof.
  intros Ha Hb Hne Heq. unfold print_VideoAccelerationType in Heq.
  repeat case_decide; try congruence;
    apply (inj (String.app out)) in Heq; try discriminate Heq.
  apply format_UNKNOWN_inj in Heq.
  - by apply Hne, wrap_unsigned_32_inj.
  - apply Z.mod_pos_bound. lia.
  - apply Z.mod_pos_bound. lia.
Qed.

Lemma print_VideoAccelerationType_distinct_witness :
  print_VideoAccelerationType (H := consecutive_types) "va=" 7
  ≠ print_VideoAccelerationType (H := consecutive_types) "va=" (-1).
Proof.
  apply (print_VideoAccelerationType_distinct (H := consecutive_types) "va=" 7 (-1));
    unfold int_range; lia.
Defined.

Example print_VideoAccelerationType_run :
  print_VideoAccelerationType (H := consecutive_types) "" 3 = "VAAPI" ∧
  print_VideoAccelerationType (H := consecutive_types) "" 16 = "UNKNOWN(0x16x)" ∧
  print_VideoAccelerationType (H := consecutive_types) "" (-1)
  = "UNKNOWN(0x4294967295x)".
Proof. repeat split; vm_compute; reflexivity. Qed.

End PrintFacts.
